(** * Extendable unique ownership: a shallow embedding

    The C++ sources (extendable_unique_ownership.h and its impl, plus the
    older OwningRef / WeakRef / ScopedRef variant) build three handles on top
    of std::shared_ptr / std::weak_ptr.  We model the shared-ownership
    machinery explicitly:

    - the heap of control blocks is a [gmap nat resource_owner]: a control
      block id is present while its use count is positive, and is deleted
      (destroying the resource_owner and hence its std::unique_ptr) when the
      last strong reference is dropped;
    - a [std::shared_ptr<resource_owner>] (strong link) and a
      [std::weak_ptr<resource_owner>] (weak link) are both an [option nat]
      naming a control block; only strong links are counted;
    - a raw [T*] is a [ptr := N], [0] being [nullptr];
    - control-block ids are never reused ([next_id] only grows), as a
      weak_ptr never resolves to a block allocated after its own expired. *)

From stdpp Require Import base gmap list.
From Stdlib Require Import NArith Lia.

Definition ptr := N.
Definition nullptr : ptr := 0%N.

(** [unique_extendable_ptr<T>::resource_owner]: the owned [std::unique_ptr<T>]
    (as the raw address it holds), the atomic [marked_for_destruction] flag,
    and the use count of the [std::shared_ptr] control block it lives in. *)
Record resource_owner := mk_owner {
  resource : ptr;
  marked_for_destruction : bool;
  use_count : nat
}.

Record store := mk_store {
  heap : gmap nat resource_owner;
  next_id : nat
}.

Abbreviation strong_lifetime_link := (option nat).
Abbreviation weak_lifetime_link := (option nat).

(** ** std::shared_ptr / std::weak_ptr primitives *)

(** [std::make_shared<resource_owner>(std::move(resource))]: the
    constructor [resource_owner(std::unique_ptr<T>)] initialises
    [marked_for_destruction(false)]. *)
Definition make_shared_owner (r : ptr) (st : store) : strong_lifetime_link * store :=
  (Some (next_id st),
   mk_store (<[next_id st := mk_owner r false 1]> (heap st)) (S (next_id st))).

(** Copying a strong link: the use count goes up. *)
Definition acquire (id : nat) (st : store) : store :=
  match heap st !! id with
  | Some c => mk_store (<[id := mk_owner (resource c) (marked_for_destruction c)
                                         (S (use_count c))]> (heap st)) (next_id st)
  | None => st
  end.

(** Destroying / resetting a strong link: the use count goes down, and the
    [resource_owner] (with the resource it owns) is destroyed at zero. *)
Definition release (id : nat) (st : store) : store :=
  match heap st !! id with
  | Some c =>
      match use_count c with
      | 0 | 1 => mk_store (delete id (heap st)) (next_id st)
      | S (S n) => mk_store (<[id := mk_owner (resource c) (marked_for_destruction c)
                                               (S n)]> (heap st)) (next_id st)
      end
  | None => st
  end.

(** [shared_ptr::reset()] / destructor on a possibly empty link. *)
Definition release_link (l : strong_lifetime_link) (st : store) : store :=
  match l with Some id => release id st | None => st end.

(** [weak_ptr::lock()]: an empty [shared_ptr] if the block is gone (expired),
    otherwise a new strong link. *)
Definition weak_ptr_lock (l : weak_lifetime_link) (st : store)
  : strong_lifetime_link * store :=
  match l with
  | Some id =>
      match heap st !! id with
      | Some c => if decide (0 < use_count c) then (Some id, acquire id st)
                  else (None, st)
      | None => (None, st)
      end
  | None => (None, st)
  end.

(** [strong_link.get()] followed by a load of the pointee: the
    [resource_owner] a non-null raw pointer designates. *)
Definition deref (l : strong_lifetime_link) (st : store) : option resource_owner :=
  match l with Some id => heap st !! id | None => None end.

(** ** unique_extendable_ptr<T> *)

Abbreviation unique_extendable_ptr := (option nat).

(** [unique_extendable_ptr() = default]: owns nothing. *)
Definition unique_extendable_ptr_empty : unique_extendable_ptr := None.

(** [unique_extendable_ptr(std::unique_ptr<T> resource)]
    : resource(std::make_shared<resource_owner>(std::move(resource))). *)
Definition unique_extendable_ptr_new (r : ptr) (st : store)
  : unique_extendable_ptr * store :=
  make_shared_owner r st.

(** [make_unique_extendable<T>(args...)]: [std::make_unique<T>] yields a
    fresh non-null address [r], which is then wrapped. *)
Definition make_unique_extendable (r : ptr) (st : store)
  : unique_extendable_ptr * store :=
  unique_extendable_ptr_new r st.

(** [T* get() const { return resource->get(); }]: [None] stands for the
    null [shared_ptr] dereference (undefined behaviour). *)
Definition unique_extendable_ptr_get (p : unique_extendable_ptr) (st : store)
  : option ptr :=
  match deref p st with Some c => Some (resource c) | None => None end.

(** [void reset() { if (resource != nullptr) {
        resource->marked_for_destruction.store(true); resource.reset(); } }] *)
Definition mark_for_destruction (id : nat) (st : store) : store :=
  match heap st !! id with
  | Some c => mk_store (<[id := mk_owner (resource c) true (use_count c)]> (heap st))
                       (next_id st)
  | None => st
  end.

Definition unique_extendable_ptr_reset (p : unique_extendable_ptr) (st : store)
  : unique_extendable_ptr * store :=
  match p with
  | Some id => (None, release id (mark_for_destruction id st))
  | None => (p, st)
  end.

(** [~unique_extendable_ptr() { reset(); }] *)
Definition unique_extendable_ptr_destroy (p : unique_extendable_ptr) (st : store)
  : store :=
  snd (unique_extendable_ptr_reset p st).

(** [operator=(unique_extendable_ptr&&) = default]: the member
    [std::shared_ptr] is move-assigned, i.e. [shared_ptr(std::move(src))
    .swap( *this)]: the target takes the source's link, the source becomes
    empty, and the target's previous link is dropped.  Returns the new
    target, the new source and the store. *)
Definition unique_extendable_ptr_move_assign (dst src : unique_extendable_ptr)
  (st : store) : unique_extendable_ptr * unique_extendable_ptr * store :=
  (src, None, release_link dst st).

(** ** scoped_extender<T> *)

Abbreviation scoped_extender := (option nat).

(** [bool empty() const { return link == nullptr; }] *)
Definition scoped_extender_empty (s : scoped_extender) : bool :=
  match s with None => true | Some _ => false end.

(** [T* get() const { return !empty() ? link->get() : nullptr; }] *)
Definition scoped_extender_get (s : scoped_extender) (st : store) : option ptr :=
  if negb (scoped_extender_empty s) then
    match deref s st with Some c => Some (resource c) | None => None end
  else Some nullptr.

(** [void reset() { link.reset(); }] and the destructor. *)
Definition scoped_extender_reset (s : scoped_extender) (st : store)
  : scoped_extender * store :=
  (None, release_link s st).

(** ** weak_extender<T> *)

Abbreviation weak_extender := (option nat).

(** [weak_extender(const unique_extendable_ptr<T>& owner) : link(owner.resource)] *)
Definition weak_extender_new (owner : unique_extendable_ptr) : weak_extender := owner.

(** [void reset() { link.reset(); }] *)
Definition weak_extender_reset (w : weak_extender) : weak_extender := None.

(** [static bool not_marked_for_destruction(const resource* resource)
      { return resource != nullptr && !resource->marked_for_destruction.load(); }] *)
Definition not_marked_for_destruction (r : option resource_owner) : bool :=
  match r with
  | Some c => negb (marked_for_destruction c)
  | None => false
  end.

(** The second half of [lock()], once [strong_link] is held:
    [not_marked_for_destruction(strong_link.get()) ? scoped_extender<T>(strong_link)
     : scoped_extender<T>()].  On success the link is copied into the
    scoped_extender and the local copy is destroyed (net: the reference is
    handed over); on failure the local [strong_link] is destroyed. *)
Definition lock_finish (strong_link : strong_lifetime_link) (st : store)
  : scoped_extender * store :=
  if not_marked_for_destruction (deref strong_link st)
  then (strong_link, st)
  else (None, release_link strong_link st).

(** [scoped_extender<T> lock() const { auto strong_link = link.lock(); ... }] *)
Definition weak_extender_lock (w : weak_extender) (st : store)
  : scoped_extender * store :=
  let '(strong_link, st1) := weak_ptr_lock w st in
  lock_finish strong_link st1.

(** The algorithm of [lock()] in the words of the specification: (a) try
    to obtain a strong reference from the weak observation, failing when
    the resource_owner no longer exists; (b) if obtained, check the
    destruction latch and, when it is set, drop the strong reference and
    fail; (c) otherwise wrap the strong reference.  A failure is an empty
    scoped extender. *)
Definition lock_spec (w : weak_extender) (st : store) : scoped_extender * store :=
  match w with
  | None => (None, st)
  | Some id =>
      match heap st !! id with
      | Some o =>
          if decide (0 < use_count o) then
            let st1 := acquire id st in
            if marked_for_destruction o then (None, release id st1)
            else (Some id, st1)
          else (None, st)
      | None => (None, st)
      end
  end.

(** ** The OwningRef / WeakRef / ScopedRef variant *)

Module Shareable.

(** [OwningRef(T* resource) : resource(std::make_shared<ResourceOwner>(
      std::unique_ptr<T>(resource)))]; the [std::unique_ptr<T>] constructor
    is the same. *)
Definition OwningRef_new (r : ptr) (st : store) : strong_lifetime_link * store :=
  make_shared_owner r st.

(** [void reset() { if (resource != nullptr) {
        resource->markedForDestruction.store(true); resource.reset(); } }] *)
Definition OwningRef_reset (p : strong_lifetime_link) (st : store)
  : strong_lifetime_link * store :=
  match p with
  | Some id => (None, release id (mark_for_destruction id st))
  | None => (p, st)
  end.

(** [WeakRef(const OwningRef<T>& owner) : resource(owner.resource)] *)
Definition WeakRef_new (owner : strong_lifetime_link) : weak_lifetime_link := owner.

(** shareable_unique_ownership_impl.h:
    [static bool notMarkedForDestruction(const Resource* resource)
      { return resource != nullptr && !resource->markedForDestruction.load(); }] *)
Definition notMarkedForDestruction_raw (r : option resource_owner) : bool :=
  match r with
  | Some c => negb (marked_for_destruction c)
  | None => false
  end.

(** shareable_unique_ownership_impl.h:
    [auto sharedPtr = resource.lock();
     return notMarkedForDestruction(sharedPtr.get())
         ? ScopedRef<T>(sharedPtr) : ScopedRef<T>();] *)
Definition WeakRef_lock (w : weak_lifetime_link) (st : store)
  : strong_lifetime_link * store :=
  let '(sharedPtr, st1) := weak_ptr_lock w st in
  if notMarkedForDestruction_raw (deref sharedPtr st1)
  then (sharedPtr, st1)
  else (None, release_link sharedPtr st1).

(** The other copy of the variant:
    [static bool notMarkedForDestruction(const std::shared_ptr<Resource>& resource)
      { return !resource->markedForDestruction.load(); }]
    It is only called on a non-null [sharedPtr]; a non-null link returned by
    [weak_ptr::lock()] designates a block of the heap, so the [None] branch
    (a dangling link) is never taken from [WeakRef_lock_checked]. *)
Definition notMarkedForDestruction_shared (sharedPtr : strong_lifetime_link) (st : store)
  : bool :=
  match deref sharedPtr st with
  | Some c => negb (marked_for_destruction c)
  | None => false
  end.

(** [auto sharedPtr = resource.lock();
     if (bool(sharedPtr) && notMarkedForDestruction(sharedPtr))
         { return ScopedRef<T>(sharedPtr); }
     return ScopedRef<T>();] *)
Definition WeakRef_lock_checked (w : weak_lifetime_link) (st : store)
  : strong_lifetime_link * store :=
  let '(sharedPtr, st1) := weak_ptr_lock w st in
  if (match sharedPtr with Some _ => true | None => false end)
     && notMarkedForDestruction_shared sharedPtr st1
  then (sharedPtr, st1)
  else (None, release_link sharedPtr st1).

(** [bool empty() const { return resource == nullptr; }] *)
Definition ScopedRef_empty (s : strong_lifetime_link) : bool :=
  match s with None => true | Some _ => false end.

(** [T* get() const { return resource->get(); }]: no emptiness test; [None]
    stands for the dereference of a null [std::shared_ptr]. *)
Definition ScopedRef_get (s : strong_lifetime_link) (st : store) : option ptr :=
  match deref s st with Some c => Some (resource c) | None => None end.

End Shareable.

(** ** Interleaved execution

    A configuration holds the store and every live handle of the program,
    each kind in a list indexed by the handle's name.  [pending] holds the
    local [strong_link] of the [lock()] calls that have run [link.lock()]
    but not yet tested the flag, so that another thread's [reset()] may
    run between the two halves of a [lock()].  A destroyed handle is the
    empty one: every destructor is the corresponding [reset()]. *)

Record config := mk_config {
  cstore : store;
  uptrs : list unique_extendable_ptr;
  weaks : list weak_extender;
  scopeds : list scoped_extender;
  pending : list strong_lifetime_link
}.

Definition init_config : config :=
  mk_config (mk_store ∅ 0) [] [] [] [].

Inductive step : config -> config -> Prop :=
  | step_new st us ws ss ps r p st' :
      unique_extendable_ptr_new r st = (p, st') ->
      step (mk_config st us ws ss ps) (mk_config st' (us ++ [p]) ws ss ps)
  | step_new_empty st us ws ss ps :
      step (mk_config st us ws ss ps)
           (mk_config st (us ++ [unique_extendable_ptr_empty]) ws ss ps)
  | step_reset st us ws ss ps i p p' st' :
      us !! i = Some p ->
      unique_extendable_ptr_reset p st = (p', st') ->
      step (mk_config st us ws ss ps) (mk_config st' (<[i := p']> us) ws ss ps)
  | step_move_assign st us ws ss ps i j pi pj pi' pj' st' :
      i <> j -> us !! i = Some pi -> us !! j = Some pj ->
      unique_extendable_ptr_move_assign pi pj st = (pi', pj', st') ->
      step (mk_config st us ws ss ps)
           (mk_config st' (<[j := pj']> (<[i := pi']> us)) ws ss ps)
  | step_weak_new st us ws ss ps i p :
      us !! i = Some p ->
      step (mk_config st us ws ss ps)
           (mk_config st us (ws ++ [weak_extender_new p]) ss ps)
  | step_weak_copy st us ws ss ps k w :
      ws !! k = Some w ->
      step (mk_config st us ws ss ps) (mk_config st us (ws ++ [w]) ss ps)
  | step_weak_reset st us ws ss ps k w :
      ws !! k = Some w ->
      step (mk_config st us ws ss ps)
           (mk_config st us (<[k := weak_extender_reset w]> ws) ss ps)
  | step_lock_begin st us ws ss ps k w l st' :
      ws !! k = Some w ->
      weak_ptr_lock w st = (l, st') ->
      step (mk_config st us ws ss ps) (mk_config st' us ws ss (ps ++ [l]))
  | step_lock_end st us ws ss ps k l s st' :
      ps !! k = Some l ->
      lock_finish l st = (s, st') ->
      step (mk_config st us ws ss ps)
           (mk_config st' us ws (ss ++ [s]) (<[k := None]> ps))
  | step_scoped_reset st us ws ss ps k s s' st' :
      ss !! k = Some s ->
      scoped_extender_reset s st = (s', st') ->
      step (mk_config st us ws ss ps) (mk_config st' us ws (<[k := s']> ss) ps).

Definition reachable (c : config) : Prop := rtc step init_config c.

(** ** Reference counts *)

(** Whether a link designates block [id]. *)
Definition occ1 (id : nat) (l : option nat) : nat :=
  if decide (l = Some id) then 1 else 0.

(** Number of links of a list that designate block [id]. *)
Fixpoint occ (id : nat) (l : list (option nat)) : nat :=
  match l with
  | [] => 0
  | h :: t => occ1 id h + occ id t
  end.

(** Strong references to block [id]: owning pointers, scoped extenders and
    the local [strong_link] of the [lock()] calls in progress. *)
Definition refs (c : config) (id : nat) : nat :=
  occ id (uptrs c) + occ id (scopeds c) + occ id (pending c).

(** Per block: the use count is the number of strong references, a block
    is freed exactly when no strong reference is left, ids below
    [next_id] only, at most one owning pointer, and an owned block is not
    marked for destruction. *)
Definition inv_at (c : config) (id : nat) : Prop :=
  match heap (cstore c) !! id with
  | Some o => use_count o = refs c id /\ 0 < use_count o /\ id < next_id (cstore c) /\
              (occ id (uptrs c) = 1 -> marked_for_destruction o = false)
  | None => refs c id = 0
  end /\ occ id (uptrs c) <= 1.

Definition Inv (c : config) : Prop :=
  (forall id, inv_at c id) /\
  (forall k id, weaks c !! k = Some (Some id) -> id < next_id (cstore c)).

(** What a store operation may do to a block that exists before and after
    it: keep its resource, and keep or raise its flag. *)
Definition cell_kept (st st' : store) : Prop :=
  forall id o o', heap st !! id = Some o -> heap st' !! id = Some o' ->
    resource o' = resource o /\
    (marked_for_destruction o' = marked_for_destruction o \/
     marked_for_destruction o' = true).

(** ... and never bring back a block that is gone. *)
Definition gone_kept (st st' : store) : Prop :=
  forall id, id < next_id st -> heap st !! id = None -> heap st' !! id = None.

(** A step of any thread that leaves the [k]-th scoped_extender alone (it
    is neither reset nor destroyed). *)
Definition keeps_scoped (k : nat) (x y : config) : Prop :=
  step x y /\ scopeds y !! k = scopeds x !! k.


(** Block [id] was allocated and is either freed or marked for destruction. *)
Definition gone_or_marked (st : store) (id : nat) : Prop :=
  id < next_id st /\
  match heap st !! id with
  | Some o => marked_for_destruction o = true
  | None => True
  end.

(** The configuration right after [uptrs c !! i]'s [reset()]. *)
Definition after_reset (c : config) (i id : nat) : config :=
  mk_config (snd (unique_extendable_ptr_reset (Some id) (cstore c)))
            (<[i := fst (unique_extendable_ptr_reset (Some id) (cstore c))]> (uptrs c))
            (weaks c) (scopeds c) (pending c).

(** Concrete runs used to exercise the claims.  [demo_locked]: one owner
    of a resource at address 42, a weak_extender taken from it, and a
    completed [lock()] whose scoped_extender is alive. *)
Definition demo_locked : config :=
  mk_config (mk_store {[0 := mk_owner 42%N false 2]} 1)
            [Some 0] [Some 0] [Some 0] [None].

(** [demo_locked] after the owner's [reset()]. *)
Definition demo_released : config :=
  mk_config (mk_store {[0 := mk_owner 42%N true 1]} 1)
            [None] [Some 0] [Some 0] [None].

(** Two owners (resources at 42 and 43) and a live scoped_extender on the
    first block. *)
Definition demo_two : config :=
  mk_config (mk_store (<[1 := mk_owner 43%N false 1]> {[0 := mk_owner 42%N false 2]}) 2)
            [Some 0; Some 1] [Some 0] [Some 0] [None].


(** ** Lemmas on counts and on the store operations *)

Lemma occ_app id l1 l2 : occ id (l1 ++ l2) = occ id l1 + occ id l2.
Proof. induction l1 as [|h t IH]; simpl; [done | rewrite IH; lia]. Qed.

Lemma occ_insert id (l : list (option nat)) k old v :
  l !! k = Some old -> occ id (<[k := v]> l) + occ1 id old = occ id l + occ1 id v.
Proof.
  revert k. induction l as [|h t IH]; intros [|k] Hk; simpl in *; try done.
  - injection Hk as ->. lia.
  - specialize (IH k Hk). lia.
Qed.

Lemma occ_lookup id (l : list (option nat)) k :
  l !! k = Some (Some id) -> 1 <= occ id l.
Proof.
  revert k. induction l as [|h t IH]; intros [|k] Hk; simpl in *; try done.
  - injection Hk as ->. unfold occ1. case_decide; [lia | congruence].
  - specialize (IH k Hk). lia.
Qed.

Lemma occ1_none id : occ1 id None = 0.
Proof. unfold occ1. case_decide; [discriminate | done]. Qed.

Lemma occ1_some id a : occ1 id (Some a) = if decide (a = id) then 1 else 0.
Proof. unfold occ1. do 2 case_decide; congruence. Qed.

Lemma next_id_acquire a st : next_id (acquire a st) = next_id st.
Proof. unfold acquire. by case_match. Qed.

Lemma next_id_release a st : next_id (release a st) = next_id st.
Proof. unfold release. repeat case_match; done. Qed.

Lemma next_id_release_link l st : next_id (release_link l st) = next_id st.
Proof. destruct l; simpl; [apply next_id_release | done]. Qed.

Lemma next_id_mark a st : next_id (mark_for_destruction a st) = next_id st.
Proof. unfold mark_for_destruction. by case_match. Qed.

Lemma lookup_acquire a x st :
  heap (acquire a st) !! x =
  if decide (a = x) then
    (match heap st !! x with
     | Some c => Some (mk_owner (resource c) (marked_for_destruction c) (S (use_count c)))
     | None => None end)
  else heap st !! x.
Proof.
  unfold acquire. destruct (heap st !! a) eqn:E; case_decide; subst; simpl;
    simplify_map_eq; done.
Qed.

Lemma lookup_release a x st :
  heap (release a st) !! x =
  if decide (a = x) then
    (match heap st !! x with
     | Some c => if decide (use_count c <= 1) then None
                 else Some (mk_owner (resource c) (marked_for_destruction c)
                                     (pred (use_count c)))
     | None => None end)
  else heap st !! x.
Proof.
  unfold release. destruct (decide (a = x)) as [<-|Hne].
  - destruct (heap st !! a) as [c|] eqn:E; [|done].
    destruct (use_count c) as [|[|n]] eqn:U; simpl;
      rewrite ?lookup_delete_eq, ?lookup_insert_eq;
      repeat case_decide; try lia; done.
  - destruct (heap st !! a) as [c|] eqn:E; [|done].
    destruct (use_count c) as [|[|n]]; simpl; simplify_map_eq; done.
Qed.

Lemma lookup_mark a x st :
  heap (mark_for_destruction a st) !! x =
  if decide (a = x) then
    (match heap st !! x with
     | Some c => Some (mk_owner (resource c) true (use_count c))
     | None => None end)
  else heap st !! x.
Proof.
  unfold mark_for_destruction. destruct (heap st !! a) eqn:E; case_decide; subst; simpl;
    simplify_map_eq; done.
Qed.

(** ** The invariant is preserved by every step *)

Lemma inv_at_release (c c' : config) l x :
  inv_at c x ->
  cstore c' = release_link l (cstore c) ->
  refs c' x + occ1 x l = refs c x ->
  occ x (uptrs c') <= occ x (uptrs c) ->
  (occ x (uptrs c') = 1 -> occ x (uptrs c) = 1) ->
  inv_at c' x.
Proof.
  unfold inv_at. intros [Hc Hu] Hst Hr Hu1 Hu2. rewrite Hst. split; [|lia].
  destruct l as [a|]; simpl.
  - rewrite lookup_release, next_id_release. rewrite occ1_some in Hr.
    case_decide as Ha.
    + subst a. destruct (heap (cstore c) !! x) as [o|]; [|lia].
      destruct Hc as (H1 & H2 & H3 & H4). case_decide; [lia|].
      simpl. repeat split; try lia. auto.
    + destruct (heap (cstore c) !! x) as [o|]; [|lia].
      destruct Hc as (H1 & H2 & H3 & H4). repeat split; try lia. auto.
  - rewrite occ1_none in Hr.
    destruct (heap (cstore c) !! x) as [o|]; [|lia].
    destruct Hc as (H1 & H2 & H3 & H4). repeat split; try lia. auto.
Qed.

Lemma inv_at_reset (c c' : config) i a x :
  inv_at c x ->
  uptrs c !! i = Some (Some a) ->
  cstore c' = release a (mark_for_destruction a (cstore c)) ->
  uptrs c' = <[i := None]> (uptrs c) ->
  scopeds c' = scopeds c -> pending c' = pending c ->
  inv_at c' x.
Proof.
  unfold inv_at, refs. intros [Hc Hu] Hi Hst Hus Hss Hps.
  pose proof (occ_insert x (uptrs c) i (Some a) None Hi) as Ho.
  rewrite occ1_none, occ1_some in Ho.
  rewrite Hst, Hus, Hss, Hps, lookup_release, next_id_release, next_id_mark.
  case_decide as Ha.
  - subst a. pose proof (occ_lookup x _ _ Hi). split; [|lia].
    rewrite lookup_mark, decide_True by done.
    destruct (heap (cstore c) !! x) as [o|]; [|lia].
    destruct Hc as (H1 & H2 & H3 & H4). simpl. case_decide; [lia|].
    simpl. repeat split; try lia.
  - split; [|lia]. rewrite lookup_mark, decide_False by done.
    destruct (heap (cstore c) !! x) as [o|]; [|lia].
    destruct Hc as (H1 & H2 & H3 & H4). repeat split; try lia. intros E; apply H4; lia.
Qed.

Lemma inv_at_lock_begin (c c' : config) w l x :
  inv_at c x ->
  weak_ptr_lock w (cstore c) = (l, cstore c') ->
  refs c' x = refs c x + occ1 x l ->
  uptrs c' = uptrs c ->
  inv_at c' x.
Proof.
  unfold inv_at. intros [Hc Hu] Hl Hr Hus. rewrite Hus. split; [|lia].
  destruct w as [a|]; simpl in Hl.
  - destruct (heap (cstore c) !! a) as [o|] eqn:Ea.
    + case_decide as Hpos; injection Hl as <- <-.
      * rewrite lookup_acquire, next_id_acquire, occ1_some in *.
        case_decide as Hax.
        -- subst a. rewrite Ea in *. destruct Hc as (H1 & H2 & H3 & H4).
           simpl. repeat split; try lia. auto.
        -- destruct (heap (cstore c) !! x) as [o'|]; [|lia].
           destruct Hc as (H1 & H2 & H3 & H4). repeat split; try lia. auto.
      * rewrite occ1_none in Hr.
        destruct (heap (cstore c) !! x) as [o'|]; [|lia].
        destruct Hc as (H1 & H2 & H3 & H4). repeat split; try lia. auto.
    + injection Hl as <- <-. rewrite occ1_none in Hr.
      destruct (heap (cstore c) !! x) as [o'|]; [|lia].
      destruct Hc as (H1 & H2 & H3 & H4). repeat split; try lia. auto.
  - injection Hl as <- <-. rewrite occ1_none in Hr.
    destruct (heap (cstore c) !! x) as [o'|]; [|lia].
    destruct Hc as (H1 & H2 & H3 & H4). repeat split; try lia. auto.
Qed.

Lemma next_id_weak_ptr_lock w st l st' :
  weak_ptr_lock w st = (l, st') -> next_id st' = next_id st.
Proof.
  unfold weak_ptr_lock. intros H. repeat case_match; injection H as _ <-;
    rewrite ?next_id_acquire; done.
Qed.

Lemma weak_bound_app (ws : list (option nat)) w n :
  (forall k id, ws !! k = Some (Some id) -> id < n) ->
  (forall id, w = Some id -> id < n) ->
  forall k id, (ws ++ [w]) !! k = Some (Some id) -> id < n.
Proof.
  intros Hws Hw k id Hk. rewrite lookup_app in Hk.
  destruct (ws !! k) eqn:E.
  - injection Hk as ->. eauto.
  - apply list_lookup_singleton_Some in Hk as [_ ->]. auto.
Qed.

Lemma weak_bound_insert (ws : list (option nat)) k0 n :
  (forall k id, ws !! k = Some (Some id) -> id < n) ->
  forall k id, (<[k0 := None]> ws) !! k = Some (Some id) -> id < n.
Proof.
  intros Hws k id Hk. destruct (decide (k = k0)) as [->|Hne].
  - apply list_lookup_insert_Some in Hk as [[_ [? _]]|[_ Hk]]; [done|eauto].
  - rewrite list_lookup_insert_ne in Hk by done. eauto.
Qed.

(** A strong link held by a handle designates a block of the heap. *)
Lemma held_in_heap (c : config) id :
  inv_at c id -> 1 <= refs c id ->
  exists o, heap (cstore c) !! id = Some o /\ use_count o = refs c id /\
            id < next_id (cstore c).
Proof.
  unfold inv_at. intros [Hc _] Hr.
  destruct (heap (cstore c) !! id) as [o|]; [|lia].
  destruct Hc as (H1 & H2 & H3 & _). eauto.
Qed.

Lemma Inv_init : Inv init_config.
Proof.
  split.
  - intros id. unfold inv_at, refs. simpl. rewrite lookup_empty. lia.
  - intros k id H. simpl in H. rewrite lookup_nil in H. done.
Qed.

Lemma step_Inv (c c' : config) : Inv c -> step c c' -> Inv c'.
Proof.
  intros [Hid Hw] Hs. destruct Hs as
    [st us ws ss ps r p st' E
    |st us ws ss ps
    |st us ws ss ps i p p' st' Hi E
    |st us ws ss ps i j pi pj pi' pj' st' Hij Hi Hj E
    |st us ws ss ps i p Hi
    |st us ws ss ps k w Hk
    |st us ws ss ps k w Hk
    |st us ws ss ps k w l st' Hk E
    |st us ws ss ps k l s st' Hk E
    |st us ws ss ps k s s' st' Hk E]; simpl in *.
  - (* unique_extendable_ptr(std::unique_ptr<T>) *)
    unfold unique_extendable_ptr_new, make_shared_owner in E.
    injection E as <- <-.
    assert (Hn : refs (mk_config st us ws ss ps) (next_id st) = 0).
    { specialize (Hid (next_id st)). unfold inv_at in Hid. simpl in Hid.
      destruct (heap st !! next_id st); [lia | tauto]. }
    split; simpl.
    + intros x. unfold inv_at, refs in *. simpl in *. rewrite occ_app. simpl.
      rewrite occ1_some. specialize (Hid x). simpl in Hid.
      case_decide as Hx.
      * subst x. simplify_map_eq. simpl. split; [|lia]. repeat split; lia.
      * rewrite lookup_insert_ne by done.
        destruct Hid as [Hc Hu]. split; [|lia].
        destruct (st.(heap) !! x) as [o|]; [|lia].
        destruct Hc as (H1 & H2 & H3 & H4). repeat split; try lia.
        intros; apply H4; lia.
    + intros k id Hk. specialize (Hw k id Hk). lia.
  - (* unique_extendable_ptr() *)
    split; [|done]. intros x.
    apply (inv_at_release (mk_config st us ws ss ps) _ None); simpl;
      unfold refs; simpl; rewrite ?occ_app, ?occ1_none; simpl; auto; lia.
  - (* reset() *)
    destruct p as [a|]; simpl in E; injection E as <- <-.
    + split; [|simpl; rewrite next_id_release, next_id_mark; exact Hw]. intros x.
      eapply inv_at_reset; [apply Hid | exact Hi | done ..].
    + split; [|done]. intros x.
      pose proof (occ_insert x us i None None Hi) as Ho.
      apply (inv_at_release (mk_config st us ws ss ps) _ None); simpl;
        unfold refs; simpl; rewrite ?occ1_none in *; auto; lia.
  - (* move assignment *)
    unfold unique_extendable_ptr_move_assign in E. injection E as <- <- <-.
    pose proof (occ_insert_twice := fun x =>
      conj (occ_insert x us i pi pj Hi)
           (occ_insert x (<[i := pj]> us) j pj None
              ltac:(rewrite list_lookup_insert_ne by done; exact Hj))).
    split; [|simpl; rewrite next_id_release_link; done]. intros x.
    destruct (occ_insert_twice x) as [O1 O2]. rewrite occ1_none in O2.
    pose proof (proj2 (Hid x)) as Hu. simpl in Hu.
    apply (inv_at_release (mk_config st us ws ss ps) _ pi); simpl;
      unfold refs; simpl; auto; lia.
  - (* weak_extender(const unique_extendable_ptr&) *)
    split.
    + intros x. apply (inv_at_release (mk_config st us ws ss ps) _ None); simpl;
        unfold refs; simpl; rewrite ?occ1_none; auto; lia.
    + apply weak_bound_app; [done|]. intros a Ha. unfold weak_extender_new in Ha.
      subst p. destruct (held_in_heap (mk_config st us ws ss ps) a (Hid a)) as (o & _ & _ & Ha).
      { unfold refs. simpl. pose proof (occ_lookup a us i Hi). lia. }
      done.
  - (* copying a weak_extender *)
    split.
    + intros x. apply (inv_at_release (mk_config st us ws ss ps) _ None); simpl;
        unfold refs; simpl; rewrite ?occ1_none; auto; lia.
    + apply weak_bound_app; [done|]. intros a ->. eauto.
  - (* weak_extender::reset() *)
    split.
    + intros x. apply (inv_at_release (mk_config st us ws ss ps) _ None); simpl;
        unfold refs; simpl; rewrite ?occ1_none; auto; lia.
    + apply weak_bound_insert. done.
  - (* lock(): link.lock() *)
    split.
    + intros x. apply (inv_at_lock_begin (mk_config st us ws ss ps) _ w l); simpl;
        auto. unfold refs; simpl. rewrite occ_app. simpl. lia.
    + simpl. rewrite (next_id_weak_ptr_lock _ _ _ _ E). done.
  - (* lock(): the flag test *)
    pose proof (fun x => occ_insert x ps k l None Hk) as Op.
    unfold lock_finish in E. case_match; injection E as <- <-.
    + split; [|done]. intros x. specialize (Op x). rewrite occ1_none in Op.
      apply (inv_at_release (mk_config st us ws ss ps) _ None); simpl;
        unfold refs; simpl; rewrite ?occ_app; simpl; rewrite ?occ1_none; auto; lia.
    + split; [|simpl; rewrite next_id_release_link; done]. intros x.
      specialize (Op x). rewrite occ1_none in Op.
      apply (inv_at_release (mk_config st us ws ss ps) _ l); simpl;
        unfold refs; simpl; rewrite ?occ_app; simpl; rewrite ?occ1_none; auto; lia.
  - (* scoped_extender::reset() *)
    unfold scoped_extender_reset in E. injection E as <- <-.
    split; [|simpl; rewrite next_id_release_link; done]. intros x.
    pose proof (occ_insert x ss k s None Hk) as Os. rewrite occ1_none in Os.
    apply (inv_at_release (mk_config st us ws ss ps) _ s); simpl;
      unfold refs; simpl; auto; lia.
Qed.

Lemma rtc_step_Inv (c c' : config) : rtc step c c' -> Inv c -> Inv c'.
Proof.
  induction 1 as [|x y z Hxy Hyz IH]; [done|]. intros Hx.
  apply IH. by apply (step_Inv x).
Qed.

Lemma reachable_Inv (c : config) : reachable c -> Inv c.
Proof. intros H. exact (rtc_step_Inv _ _ H Inv_init). Qed.

(** ** Cells across a step *)

Lemma release_acquire id st o :
  heap st !! id = Some o -> 0 < use_count o -> release id (acquire id st) = st.
Proof.
  intros E Hpos. unfold acquire. rewrite E. unfold release. simpl.
  rewrite lookup_insert_eq. simpl.
  destruct (use_count o) as [|n] eqn:U; [lia|]. simpl.
  destruct n as [|n].
  - (* the count was 1: acquire made it 2, release brings it back to 1 *)
    rewrite insert_insert_eq. destruct st as [h nx]; simpl in *. f_equal.
    apply insert_id. rewrite E. destruct o; simpl in *; subst; done.
  - rewrite insert_insert_eq. destruct st as [h nx]; simpl in *. f_equal.
    apply insert_id. rewrite E. destruct o; simpl in *; subst; done.
Qed.

Lemma cell_kept_refl st : cell_kept st st.
Proof. intros id o o' E E'. rewrite E in E'. injection E' as <-. auto. Qed.

Lemma cell_kept_acquire a st : cell_kept st (acquire a st).
Proof.
  intros id o o' E E'. rewrite lookup_acquire, E in E'.
  case_decide; injection E' as <-; simpl; auto.
Qed.

Lemma cell_kept_release a st : cell_kept st (release a st).
Proof.
  intros id o o' E E'. rewrite lookup_release, E in E'.
  repeat case_decide; try discriminate; injection E' as <-; simpl; auto.
Qed.

Lemma cell_kept_mark a st : cell_kept st (mark_for_destruction a st).
Proof.
  intros id o o' E E'. rewrite lookup_mark, E in E'.
  case_decide; injection E' as <-; simpl; auto.
Qed.

Lemma gone_kept_acquire a st : gone_kept st (acquire a st).
Proof. intros id _ E. rewrite lookup_acquire, E. by case_decide. Qed.

Lemma gone_kept_release a st : gone_kept st (release a st).
Proof. intros id _ E. rewrite lookup_release, E. by case_decide. Qed.

Lemma gone_kept_mark a st : gone_kept st (mark_for_destruction a st).
Proof. intros id _ E. rewrite lookup_mark, E. by case_decide. Qed.

Lemma cell_kept_release_link l st : cell_kept st (release_link l st).
Proof. destruct l; [apply cell_kept_release | apply cell_kept_refl]. Qed.

Lemma gone_kept_release_link l st : gone_kept st (release_link l st).
Proof. destruct l; [apply gone_kept_release | by intros ? _]. Qed.

Lemma cell_kept_reset a st : cell_kept st (release a (mark_for_destruction a st)).
Proof.
  intros id o o' E E'. rewrite lookup_release, lookup_mark in E'.
  rewrite E in E'. case_decide; [|injection E' as <-; auto].
  simpl in E'. case_decide; [discriminate|]. injection E' as <-. simpl. auto.
Qed.

Lemma gone_kept_reset a st : gone_kept st (release a (mark_for_destruction a st)).
Proof.
  intros id _ E. rewrite lookup_release, lookup_mark, E. by case_decide.
Qed.

Lemma Inv_below_next (c : config) id o :
  Inv c -> heap (cstore c) !! id = Some o -> id < next_id (cstore c).
Proof.
  intros [Hid _] E. specialize (Hid id). unfold inv_at in Hid. rewrite E in Hid.
  tauto.
Qed.

(** Every step keeps existing blocks' resources, only raises flags, never
    revives a freed block, and never lowers [next_id]. *)
Lemma step_cells (c c' : config) :
  Inv c -> step c c' ->
  cell_kept (cstore c) (cstore c') /\ gone_kept (cstore c) (cstore c') /\
  next_id (cstore c) <= next_id (cstore c').
Proof.
  intros HI Hs. destruct Hs as
    [st us ws ss ps r p st' E
    |st us ws ss ps
    |st us ws ss ps i p p' st' Hi E
    |st us ws ss ps i j pi pj pi' pj' st' Hij Hi Hj E
    |st us ws ss ps i p Hi
    |st us ws ss ps k w Hk
    |st us ws ss ps k w Hk
    |st us ws ss ps k w l st' Hk E
    |st us ws ss ps k l s st' Hk E
    |st us ws ss ps k s s' st' Hk E]; simpl in *;
    try (split; [apply cell_kept_refl | split; [by intros ? _ | lia]]).
  - unfold unique_extendable_ptr_new, make_shared_owner in E. injection E as <- <-.
    simpl. split; [|split; [|lia]].
    + intros id o o' E E'.
      pose proof (Inv_below_next (mk_config st us ws ss ps) id o HI E) as Hlt.
      simpl in Hlt, E'. rewrite lookup_insert_ne in E' by lia.
      rewrite E in E'. injection E' as <-. auto.
    + intros id Hlt E. simpl. rewrite lookup_insert_ne by lia. done.
  - destruct p as [a|]; simpl in E; injection E as <- <-.
    + split; [apply cell_kept_reset|split; [apply gone_kept_reset|]].
      rewrite next_id_release, next_id_mark. lia.
    + split; [apply cell_kept_refl | split; [by intros ? _ | lia]].
  - unfold unique_extendable_ptr_move_assign in E. injection E as <- <- <-.
    split; [apply cell_kept_release_link|split; [apply gone_kept_release_link|]].
    rewrite next_id_release_link. lia.
  - unfold weak_ptr_lock in E. repeat case_match; injection E as <- <-;
      try (split; [apply cell_kept_refl | split; [by intros ? _ | lia]]).
    split; [apply cell_kept_acquire|split; [apply gone_kept_acquire|]].
    rewrite next_id_acquire. lia.
  - unfold lock_finish in E. case_match; injection E as <- <-;
      try (split; [apply cell_kept_refl | split; [by intros ? _ | lia]]).
    split; [apply cell_kept_release_link|split; [apply gone_kept_release_link|]].
    rewrite next_id_release_link. lia.
  - unfold scoped_extender_reset in E. injection E as <- <-.
    split; [apply cell_kept_release_link|split; [apply gone_kept_release_link|]].
    rewrite next_id_release_link. lia.
Qed.

Lemma reachable_step (c c' : config) : reachable c -> step c c' -> reachable c'.
Proof. intros H Hs. unfold reachable in *. eapply rtc_r; eauto. Qed.

Lemma weak_extender_lock_as_spec (w : weak_extender) (st : store) :
  weak_extender_lock w st = lock_spec w st /\
  (fst (weak_extender_lock w st) <> None \/ snd (weak_extender_lock w st) = st).
Proof.
  destruct w as [id|]; [|simpl; auto].
  unfold weak_extender_lock, weak_ptr_lock, lock_spec.
  destruct (heap st !! id) as [o|] eqn:E; [|simpl; auto].
  case_decide as Hpos; [|simpl; auto].
  unfold lock_finish, deref. rewrite lookup_acquire, decide_True, E by done.
  simpl. destruct (marked_for_destruction o); simpl.
  - split; [done|]. right. by apply (release_acquire id st o).
  - split; [done|]. left. discriminate.
Qed.

(** ** Sanity checks on small runs *)

Example run_lock_then_release :
  let '(p, st1) := make_unique_extendable 42%N (mk_store ∅ 0) in
  let '(s, st2) := weak_extender_lock (weak_extender_new p) st1 in
  let '(_, st3) := unique_extendable_ptr_reset p st2 in
  let '(s2, _) := weak_extender_lock (weak_extender_new p) st3 in
  scoped_extender_get s st3 = Some 42%N /\ scoped_extender_empty s2 = true.
Proof. vm_compute. auto. Qed.

Example run_release_then_lock :
  let '(p, st1) := make_unique_extendable 7%N (mk_store ∅ 0) in
  let w := weak_extender_new p in
  let '(_, st2) := unique_extendable_ptr_reset p st1 in
  let '(s, _) := weak_extender_lock w st2 in
  scoped_extender_empty s = true /\ heap st2 !! 0 = None.
Proof. vm_compute. auto. Qed.

(** * Claims *)

(** C1: [lock()] obtains a strong reference from the weak observation
    (empty result when the resource_owner no longer exists), then tests the
    destruction latch (empty result, the strong reference being dropped,
    when it is set), and otherwise returns a non-empty scoped_extender
    wrapping the strong reference.  Every failure leaves the store as it
    was: the reference taken for the test is given back. *)
Theorem weak_extender_lock_algorithm (w : weak_extender) (st : store) :
  weak_extender_lock w st = lock_spec w st /\
  (fst (weak_extender_lock w st) <> None \/ snd (weak_extender_lock w st) = st).
Proof. apply weak_extender_lock_as_spec. Qed.

(** C4: [reset()] (the spec's release) sets the block's flag and then drops
    the owning reference, leaving the pointer empty: the block is freed if
    that was its last reference and is otherwise kept, marked, with one
    reference less.  On an empty pointer it does nothing, so a second call
    changes nothing, and the destructor is [reset()]. *)
Theorem unique_extendable_ptr_reset_spec :
  (forall id st,
     unique_extendable_ptr_reset (Some id) st =
       (None, release id (mark_for_destruction id st)) /\
     heap (snd (unique_extendable_ptr_reset (Some id) st)) !! id =
       match heap st !! id with
       | Some o => if decide (use_count o <= 1) then None
                   else Some (mk_owner (resource o) true (pred (use_count o)))
       | None => None
       end) /\
  (forall st, unique_extendable_ptr_reset None st = (None, st)) /\
  (forall p st,
     let '(p1, st1) := unique_extendable_ptr_reset p st in
     unique_extendable_ptr_reset p1 st1 = (p1, st1)) /\
  (forall p st, unique_extendable_ptr_destroy p st = snd (unique_extendable_ptr_reset p st)).
Proof.
  split; [|split; [|split]].
  - intros id st. split; [done|]. simpl.
    rewrite lookup_release, decide_True by done.
    rewrite lookup_mark, decide_True by done.
    destruct (heap st !! id); done.
  - done.
  - intros [id|] st; done.
  - done.
Qed.

(** C5 (code_bug): in the OwningRef / WeakRef / ScopedRef variant,
    [ScopedRef::get()] dereferences its [std::shared_ptr] without testing
    it, so [get()] on the empty ScopedRef returned by a failed [lock()]
    dereferences a null pointer ([None]), while [scoped_extender::get()]
    returns [nullptr] on the same run. *)
Theorem ScopedRef_get_on_failed_lock :
  let '(p, st1) := Shareable.OwningRef_new 7%N (mk_store ∅ 0) in
  let w := Shareable.WeakRef_new p in
  let '(_, st2) := Shareable.OwningRef_reset p st1 in
  let '(s, st3) := Shareable.WeakRef_lock w st2 in
  Shareable.ScopedRef_empty s = true /\ Shareable.ScopedRef_get s st3 = None /\
  scoped_extender_get s st3 = Some nullptr.
Proof. vm_compute. auto. Qed.

(** C8: the two copies of [WeakRef::lock()], one testing the raw pointer
    inside [notMarkedForDestruction(const Resource* )], the other testing
    [bool(sharedPtr)] before [notMarkedForDestruction(const
    std::shared_ptr<Resource>&)], give the same result (and the same store)
    in every state, which is also that of [weak_extender::lock()]. *)
Theorem WeakRef_lock_variants_agree (w : weak_lifetime_link) (st : store) :
  Shareable.WeakRef_lock w st = Shareable.WeakRef_lock_checked w st /\
  Shareable.WeakRef_lock w st = weak_extender_lock w st.
Proof.
  unfold Shareable.WeakRef_lock, Shareable.WeakRef_lock_checked, weak_extender_lock,
    lock_finish.
  destruct (weak_ptr_lock w st) as [[id|] st1]; simpl; [|done].
  unfold Shareable.notMarkedForDestruction_shared, Shareable.notMarkedForDestruction_raw,
    not_marked_for_destruction.
  destruct (heap st1 !! id) as [o|] eqn:E; simpl; rewrite ?E; [destruct (marked_for_destruction o)|]; simpl; split; done.
Qed.

(** C9: a unique_extendable_ptr built from a null [std::unique_ptr] (or,
    for OwningRef, a null raw pointer) still allocates a resource_owner:
    the pointer is not empty and [get()] is [nullptr]; locking a
    weak_extender taken from it succeeds ([empty()] is false) and [get()]
    on the result is [nullptr]. *)
Theorem null_resource_lock_not_empty (st : store) :
  let '(p, st1) := unique_extendable_ptr_new nullptr st in
  p <> None /\ unique_extendable_ptr_get p st1 = Some nullptr /\
  (let '(s, st2) := weak_extender_lock (weak_extender_new p) st1 in
   scoped_extender_empty s = false /\ scoped_extender_get s st2 = Some nullptr) /\
  (let '(q, st1') := Shareable.OwningRef_new nullptr st in
   let '(s', st2') := Shareable.WeakRef_lock q st1' in
   Shareable.ScopedRef_empty s' = false /\
   Shareable.ScopedRef_get s' st2' = Some nullptr).
Proof.
  unfold unique_extendable_ptr_new, Shareable.OwningRef_new, make_shared_owner.
  simpl. split; [done|]. split.
  - unfold unique_extendable_ptr_get, deref. simpl. by rewrite lookup_insert_eq.
  - unfold weak_extender_lock, Shareable.WeakRef_lock, weak_ptr_lock, lock_finish.
    simpl. rewrite lookup_insert_eq. simpl.
    unfold deref, acquire. simpl. rewrite !lookup_insert_eq. simpl.
    unfold scoped_extender_get, Shareable.ScopedRef_get, deref. simpl.
    rewrite !lookup_insert_eq. simpl.
    repeat split; try rewrite lookup_insert_eq; done.
Qed.

(** ** Lemmas for the claims on executions *)

Lemma owned_block (c : config) i id :
  Inv c -> uptrs c !! i = Some (Some id) ->
  exists o, heap (cstore c) !! id = Some o /\ use_count o = refs c id /\
            marked_for_destruction o = false.
Proof.
  intros [Hid _] Hi. pose proof (occ_lookup id _ _ Hi) as Ho.
  specialize (Hid id). unfold inv_at in Hid. destruct Hid as [Hc Hu].
  destruct (heap (cstore c) !! id) as [o|]; [|unfold refs in Hc; lia].
  destruct Hc as (H1 & H2 & H3 & H4). exists o. split; [done|]. split; [done|].
  apply H4. lia.
Qed.

Lemma lock_unmarked id st o :
  heap st !! id = Some o -> 0 < use_count o -> marked_for_destruction o = false ->
  weak_extender_lock (Some id) st = (Some id, acquire id st).
Proof.
  intros E Hpos Hm. unfold weak_extender_lock, weak_ptr_lock. rewrite E.
  rewrite decide_True by done. unfold lock_finish, deref.
  rewrite lookup_acquire, decide_True, E by done. simpl. by rewrite Hm.
Qed.

Lemma keeps_scoped_pins (x y : config) k id :
  reachable x -> scopeds x !! k = Some (Some id) -> keeps_scoped k x y ->
  reachable y /\ scopeds y !! k = Some (Some id) /\
  (exists o', heap (cstore y) !! id = Some o') /\
  scoped_extender_get (Some id) (cstore y) = scoped_extender_get (Some id) (cstore x).
Proof.
  intros Hx Hk [Hs Hky]. pose proof (reachable_step _ _ Hx Hs) as Hy.
  rewrite Hk in Hky. split; [done|]. split; [done|].
  pose proof (reachable_Inv _ Hx) as Ix. pose proof (reachable_Inv _ Hy) as Iy.
  assert (Hin : forall c, Inv c -> scopeds c !! k = Some (Some id) ->
                  exists o, heap (cstore c) !! id = Some o).
  { intros c' [Hid _] Hk'. pose proof (occ_lookup id _ _ Hk').
    destruct (held_in_heap c' id (Hid id)) as (o & E & _); [unfold refs; lia|eauto]. }
  destruct (Hin x Ix Hk) as [o Ex]. destruct (Hin y Iy Hky) as [o' Ey].
  split; [eauto|].
  destruct (step_cells x y Ix Hs) as [Hkept _].
  destruct (Hkept id o o' Ex Ey) as [Hres _].
  unfold scoped_extender_get, deref. simpl. rewrite Ex, Ey, Hres. done.
Qed.

Lemma gone_or_marked_step (x y : config) id :
  Inv x -> step x y -> gone_or_marked (cstore x) id -> gone_or_marked (cstore y) id.
Proof.
  intros Ix Hs [Hlt Hc]. destruct (step_cells x y Ix Hs) as (Hkept & Hgone & Hnext).
  split; [lia|].
  destruct (heap (cstore x) !! id) as [o|] eqn:Ex.
  - destruct (heap (cstore y) !! id) as [o'|] eqn:Ey; [|done].
    destruct (Hkept id o o' Ex Ey) as [_ [M|M]]; congruence.
  - by rewrite (Hgone id Hlt Ex).
Qed.

Lemma lock_gone_or_marked st id :
  gone_or_marked st id ->
  weak_extender_lock (Some id) st = (None, st) /\
  fst (lock_finish (Some id) st) = None.
Proof.
  intros [_ Hc]. destruct (weak_extender_lock_as_spec (Some id) st) as [Hspec _].
  rewrite Hspec. unfold lock_spec, lock_finish, deref, not_marked_for_destruction.
  destruct (heap st !! id) as [o|] eqn:E; [|done].
  rewrite Hc. simpl. split; [|done].
  case_decide; [|done]. f_equal. by apply (release_acquire id st o).
Qed.

Lemma demo_locked_reachable : reachable demo_locked.
Proof.
  unfold reachable, init_config.
  eapply rtc_l. { eapply (step_new _ _ _ _ _ 42%N). reflexivity. }
  eapply rtc_l. { eapply (step_weak_new _ _ _ _ _ 0). reflexivity. }
  eapply rtc_l. { eapply (step_lock_begin _ _ _ _ _ 0); reflexivity. }
  eapply rtc_l. { eapply (step_lock_end _ _ _ _ _ 0); reflexivity. }
  vm_compute. apply rtc_refl.
Qed.

Lemma demo_two_reachable : reachable demo_two.
Proof.
  unfold reachable, init_config.
  eapply rtc_l. { eapply (step_new _ _ _ _ _ 42%N). reflexivity. }
  eapply rtc_l. { eapply (step_new _ _ _ _ _ 43%N). reflexivity. }
  eapply rtc_l. { eapply (step_weak_new _ _ _ _ _ 0). reflexivity. }
  eapply rtc_l. { eapply (step_lock_begin _ _ _ _ _ 0); reflexivity. }
  eapply rtc_l. { eapply (step_lock_end _ _ _ _ _ 0); reflexivity. }
  vm_compute. apply rtc_refl.
Qed.

Lemma demo_locked_released : rtc (keeps_scoped 0) demo_locked demo_released.
Proof.
  eapply rtc_l; [|apply rtc_refl]. split; [|reflexivity].
  refine (step_reset (cstore demo_locked) [Some 0] [Some 0] [Some 0] [None] 0
            (Some 0) None (cstore demo_released) _ _); vm_compute; reflexivity.
Qed.

Lemma keeps_scoped_rtc (c c' : config) k id :
  rtc (keeps_scoped k) c c' -> reachable c -> scopeds c !! k = Some (Some id) ->
  (exists o', heap (cstore c') !! id = Some o') /\
  scoped_extender_get (Some id) (cstore c') = scoped_extender_get (Some id) (cstore c).
Proof.
  induction 1 as [x|x y z Hxy Hyz IH]; intros Hx Hk.
  - split; [|done]. destruct (reachable_Inv _ Hx) as [Hid _].
    pose proof (occ_lookup id _ _ Hk).
    destruct (held_in_heap x id (Hid id)) as (o & E & _); [unfold refs; lia|eauto].
  - destruct (keeps_scoped_pins x y k id Hx Hk Hxy) as (Hy & Hky & _ & Hget).
    destruct (IH Hy Hky) as [Hin Hget']. split; [done|]. congruence.
Qed.

Lemma gone_or_marked_rtc (c c' : config) id :
  rtc step c c' -> reachable c -> gone_or_marked (cstore c) id ->
  gone_or_marked (cstore c') id.
Proof.
  induction 1 as [x|x y z Hxy Hyz IH]; intros Hx Hg; [done|].
  apply IH; [by apply (reachable_step x)|].
  apply (gone_or_marked_step x y id (reachable_Inv _ Hx) Hxy Hg).
Qed.

(** C7: locking a weak_extender taken from a live (non-empty, so never
    reset) unique_extendable_ptr, in any reachable state, yields a
    non-empty scoped_extender whose [get()] is the owner's [get()]. *)
Theorem lock_of_live_owner (c : config) i id :
  reachable c -> uptrs c !! i = Some (Some id) ->
  let '(s, st') := weak_extender_lock (weak_extender_new (Some id)) (cstore c) in
  scoped_extender_empty s = false /\
  scoped_extender_get s st' = unique_extendable_ptr_get (Some id) (cstore c) /\
  unique_extendable_ptr_get (Some id) (cstore c) <> None.
Proof.
  intros Hc Hi. pose proof (reachable_Inv _ Hc) as I.
  destruct (owned_block c i id I Hi) as (o & E & Hcount & Hm).
  pose proof (occ_lookup id _ _ Hi) as Ho.
  unfold weak_extender_new. rewrite (lock_unmarked id (cstore c) o E); [|unfold refs in *; lia|done].
  unfold scoped_extender_get, unique_extendable_ptr_get, deref. simpl.
  rewrite lookup_acquire, decide_True, E by done. simpl. auto.
Qed.

Lemma lock_of_live_owner_witness :
  reachable demo_locked /\ uptrs demo_locked !! 0 = Some (Some 0) /\
  (let '(s, st') := weak_extender_lock (weak_extender_new (Some 0)) (cstore demo_locked) in
   scoped_extender_empty s = false /\
   scoped_extender_get s st' = unique_extendable_ptr_get (Some 0) (cstore demo_locked) /\
   unique_extendable_ptr_get (Some 0) (cstore demo_locked) <> None).
Proof.
  split; [apply demo_locked_reachable|]. split; [reflexivity|].
  apply (lock_of_live_owner demo_locked 0 0); [apply demo_locked_reachable|reflexivity].
Defined.

(** C2: once a [lock()] has produced a non-empty scoped_extender, whatever
    the other threads do (in particular the owner's [reset()] or
    destruction) as long as that scoped_extender is neither reset nor
    destroyed, its block stays allocated (the resource is not freed) and
    its [get()] keeps returning the same valid address. *)
Theorem scoped_extender_keeps_resource (c c' : config) k id :
  reachable c -> scopeds c !! k = Some (Some id) -> rtc (keeps_scoped k) c c' ->
  (exists o, heap (cstore c) !! id = Some o) /\
  (exists o', heap (cstore c') !! id = Some o') /\
  scoped_extender_get (Some id) (cstore c') = scoped_extender_get (Some id) (cstore c) /\
  scoped_extender_get (Some id) (cstore c) <> None.
Proof.
  intros Hc Hk Hrun.
  destruct (keeps_scoped_rtc c c k id (rtc_refl _ c) Hc Hk) as [[o E] _].
  destruct (keeps_scoped_rtc c c' k id Hrun Hc Hk) as [Hin Hget].
  split; [eauto|]. split; [done|]. split; [done|].
  unfold scoped_extender_get, deref. simpl. by rewrite E.
Qed.

Lemma scoped_extender_keeps_resource_witness :
  reachable demo_locked /\ scopeds demo_locked !! 0 = Some (Some 0) /\
  rtc (keeps_scoped 0) demo_locked demo_released /\
  ((exists o, heap (cstore demo_locked) !! 0 = Some o) /\
   (exists o', heap (cstore demo_released) !! 0 = Some o') /\
   scoped_extender_get (Some 0) (cstore demo_released) =
     scoped_extender_get (Some 0) (cstore demo_locked) /\
   scoped_extender_get (Some 0) (cstore demo_locked) <> None).
Proof.
  split; [apply demo_locked_reachable|]. split; [reflexivity|].
  split; [apply demo_locked_released|].
  apply (scoped_extender_keeps_resource demo_locked demo_released 0 0);
    [apply demo_locked_reachable|reflexivity|apply demo_locked_released].
Defined.

(** C3: after [reset()] on a unique_extendable_ptr (the spec's release), in
    every later state, whatever the threads do meanwhile and whatever
    references (scoped_extenders, locks in progress) are still alive,
    [lock()] on a weak_extender taken from it returns an empty
    scoped_extender, and a [lock()] that had already taken its strong
    reference fails its flag test. *)
Theorem lock_empty_after_release (c c'' : config) i id :
  reachable c -> uptrs c !! i = Some (Some id) ->
  rtc step (after_reset c i id) c'' ->
  weak_extender_lock (weak_extender_new (Some id)) (cstore c'') = (None, cstore c'') /\
  fst (lock_finish (Some id) (cstore c'')) = None.
Proof.
  intros Hc Hi Hrun. pose proof (reachable_Inv _ Hc) as I.
  assert (Hs : step c (after_reset c i id)).
  { destruct c as [st us ws ss ps]. unfold after_reset. simpl in *.
    eapply step_reset; [exact Hi|]. reflexivity. }
  destruct (owned_block c i id I Hi) as (o & E & _ & _).
  pose proof (Inv_below_next c id o I E) as Hlt.
  apply lock_gone_or_marked.
  apply (gone_or_marked_rtc (after_reset c i id)); [done|by apply (reachable_step c)|].
  unfold gone_or_marked, after_reset. simpl.
  rewrite next_id_release, next_id_mark. split; [done|].
  rewrite lookup_release, decide_True by done.
  rewrite lookup_mark, decide_True, E by done. simpl. by case_decide.
Qed.

Lemma lock_empty_after_release_witness :
  reachable demo_locked /\ uptrs demo_locked !! 0 = Some (Some 0) /\
  rtc step (after_reset demo_locked 0 0) demo_released /\
  (weak_extender_lock (weak_extender_new (Some 0)) (cstore demo_released) =
     (None, cstore demo_released) /\
   fst (lock_finish (Some 0) (cstore demo_released)) = None).
Proof.
  assert (H : rtc step (after_reset demo_locked 0 0) demo_released).
  { vm_compute. apply rtc_refl. }
  split; [apply demo_locked_reachable|]. split; [reflexivity|]. split; [exact H|].
  apply (lock_empty_after_release demo_locked demo_released 0 0);
    [apply demo_locked_reachable|reflexivity|exact H].
Defined.

(** C6: [marked_for_destruction] is a one-way latch.  The resource_owner
    constructor sets it to false, and across any step of any handle type
    (owner reset / destruction / move, weak_extender operations, the two
    halves of [lock()], scoped_extender reset / destruction) a block that
    survives keeps its flag or has it set to true, never back to false. *)
Theorem marked_for_destruction_one_way (c c' : config) id o o' :
  reachable c -> step c c' ->
  heap (cstore c) !! id = Some o -> heap (cstore c') !! id = Some o' ->
  (marked_for_destruction o' = marked_for_destruction o \/
   marked_for_destruction o' = true) /\
  (forall r st, heap (snd (unique_extendable_ptr_new r st)) !! next_id st =
                Some (mk_owner r false 1)).
Proof.
  intros Hc Hs E E'. split.
  - destruct (step_cells c c' (reachable_Inv _ Hc) Hs) as [Hkept _].
    exact (proj2 (Hkept id o o' E E')).
  - intros r st. simpl. apply lookup_insert_eq.
Qed.

Lemma demo_locked_step_released : step demo_locked demo_released.
Proof.
  refine (step_reset (cstore demo_locked) [Some 0] [Some 0] [Some 0] [None] 0
            (Some 0) None (cstore demo_released) _ _); vm_compute; reflexivity.
Qed.

Lemma marked_for_destruction_one_way_witness :
  reachable demo_locked /\ step demo_locked demo_released /\
  heap (cstore demo_locked) !! 0 = Some (mk_owner 42%N false 2) /\
  heap (cstore demo_released) !! 0 = Some (mk_owner 42%N true 1) /\
  ((marked_for_destruction (mk_owner 42%N true 1) =
      marked_for_destruction (mk_owner 42%N false 2) \/
    marked_for_destruction (mk_owner 42%N true 1) = true) /\
   (forall r st, heap (snd (unique_extendable_ptr_new r st)) !! next_id st =
                 Some (mk_owner r false 1))).
Proof.
  split; [apply demo_locked_reachable|]. split; [apply demo_locked_step_released|].
  split; [vm_compute; reflexivity|]. split; [vm_compute; reflexivity|].
  apply (marked_for_destruction_one_way demo_locked demo_released 0);
    [apply demo_locked_reachable|apply demo_locked_step_released
    |vm_compute; reflexivity|vm_compute; reflexivity].
Defined.

(** C10: move-assigning into a unique_extendable_ptr that owns a block
    drops its reference to that block without setting the block's flag;
    while a scoped_extender keeps the displaced block alive, no owning
    pointer designates it any more, yet [lock()] on a weak_extender
    observing it still succeeds. *)
Theorem move_assign_keeps_flag (c : config) i j a pj k :
  reachable c -> i <> j -> uptrs c !! i = Some (Some a) -> uptrs c !! j = Some pj ->
  scopeds c !! k = Some (Some a) ->
  let '(pi', pj', st') := unique_extendable_ptr_move_assign (Some a) pj (cstore c) in
  let c' := mk_config st' (<[j := pj']> (<[i := pi']> (uptrs c)))
                      (weaks c) (scopeds c) (pending c) in
  step c c' /\ occ a (uptrs c') = 0 /\
  (exists o, heap st' !! a = Some o /\ marked_for_destruction o = false) /\
  fst (weak_extender_lock (weak_extender_new (Some a)) st') = Some a.
Proof.
  intros Hc Hij Hi Hj Hk. pose proof (reachable_Inv _ Hc) as I.
  destruct (owned_block c i a I Hi) as (o & E & Hcount & Hm).
  pose proof (occ_lookup a _ _ Hi) as Hu. pose proof (occ_lookup a _ _ Hk) as Hs.
  pose proof (proj2 ((proj1 I) a)) as Hu1.
  pose proof (occ_insert a (uptrs c) i (Some a) pj Hi) as O1.
  pose proof (occ_insert a (<[i := pj]> (uptrs c)) j pj None
                ltac:(rewrite list_lookup_insert_ne by done; exact Hj)) as O2.
  rewrite occ1_some, decide_True in O1 by done. rewrite occ1_none in O2.
  unfold unique_extendable_ptr_move_assign, release_link. simpl.
  split.
  - destruct c as [st us ws ss ps]. simpl in *.
    eapply step_move_assign; [exact Hij|exact Hi|exact Hj|reflexivity].
  - split; [simpl; unfold refs in *; lia|].
    unfold release. rewrite E.
    destruct (use_count o) as [|[|n]] eqn:U; [unfold refs in *; lia|unfold refs in *; lia|].
    simpl. split.
    + eexists. rewrite lookup_insert_eq. split; [reflexivity|done].
    + unfold weak_extender_new.
      rewrite (lock_unmarked a _ (mk_owner (resource o) (marked_for_destruction o) (S n)));
        [done|simpl; by rewrite lookup_insert_eq|simpl; lia|done].
Qed.

Lemma move_assign_keeps_flag_witness :
  reachable demo_two /\ 0 <> 1 /\ uptrs demo_two !! 0 = Some (Some 0) /\
  uptrs demo_two !! 1 = Some (Some 1) /\ scopeds demo_two !! 0 = Some (Some 0) /\
  (let '(pi', pj', st') := unique_extendable_ptr_move_assign (Some 0) (Some 1) (cstore demo_two) in
   let c' := mk_config st' (<[1 := pj']> (<[0 := pi']> (uptrs demo_two)))
                       (weaks demo_two) (scopeds demo_two) (pending demo_two) in
   step demo_two c' /\ occ 0 (uptrs c') = 0 /\
   (exists o, heap st' !! 0 = Some o /\ marked_for_destruction o = false) /\
   fst (weak_extender_lock (weak_extender_new (Some 0)) st') = Some 0).
Proof.
  split; [apply demo_two_reachable|]. split; [lia|].
  split; [reflexivity|]. split; [reflexivity|]. split; [reflexivity|].
  apply (move_assign_keeps_flag demo_two 0 1 0 (Some 1) 0);
    [apply demo_two_reachable|lia|reflexivity|reflexivity|reflexivity].
Defined.

(** * Further properties of the code *)

Lemma occ_two id (l : list (option nat)) i j :
  i <> j -> l !! i = Some (Some id) -> l !! j = Some (Some id) -> 2 <= occ id l.
Proof.
  intros Hij Hi Hj. pose proof (occ_insert id l i (Some id) None Hi) as O.
  rewrite occ1_none, occ1_some, decide_True in O by done.
  pose proof (occ_lookup id (<[i := None]> l) j
                ltac:(rewrite list_lookup_insert_ne by done; exact Hj)).
  lia.
Qed.


(** No use after free: in every reachable state, a non-empty
    unique_extendable_ptr, a non-empty scoped_extender, or the strong link
    of a [lock()] in progress designates an allocated block, so their
    [get()] never reads freed memory. *)
Theorem strong_handles_point_to_live_blocks (c : config) k id :
  reachable c ->
  uptrs c !! k = Some (Some id) \/ scopeds c !! k = Some (Some id) \/
  pending c !! k = Some (Some id) ->
  exists o, heap (cstore c) !! id = Some o /\ 0 < use_count o.
Proof.
  intros Hc Hk. destruct (reachable_Inv _ Hc) as [Hid _].
  assert (Hr : 1 <= refs c id).
  { unfold refs. destruct Hk as [H|[H|H]]; pose proof (occ_lookup id _ _ H); lia. }
  destruct (held_in_heap c id (Hid id) Hr) as (o & E & Hu & _). exists o. split; [done|lia].
Qed.

Lemma strong_handles_point_to_live_blocks_witness :
  reachable demo_locked /\
  (uptrs demo_locked !! 0 = Some (Some 0) \/ scopeds demo_locked !! 0 = Some (Some 0) \/
   pending demo_locked !! 0 = Some (Some 0)) /\
  (exists o, heap (cstore demo_locked) !! 0 = Some o /\ 0 < use_count o).
Proof.
  assert (H : uptrs demo_locked !! 0 = Some (Some 0) \/
              scopeds demo_locked !! 0 = Some (Some 0) \/
              pending demo_locked !! 0 = Some (Some 0)) by (left; reflexivity).
  split; [apply demo_locked_reachable|]. split; [exact H|].
  apply (strong_handles_point_to_live_blocks demo_locked 0 0);
    [apply demo_locked_reachable|exact H].
Defined.

(** Unique ownership: in every reachable state two distinct
    unique_extendable_ptr never designate the same block (copying is
    deleted and a move empties its source). *)
Theorem unique_owner (c : config) i j id :
  reachable c -> i <> j -> uptrs c !! i = Some (Some id) ->
  uptrs c !! j <> Some (Some id).
Proof.
  intros Hc Hij Hi Hj. destruct (reachable_Inv _ Hc) as [Hid _].
  pose proof (proj2 (Hid id)). pose proof (occ_two id _ i j Hij Hi Hj). lia.
Qed.

Lemma unique_owner_witness :
  reachable demo_two /\ 0 <> 1 /\ uptrs demo_two !! 0 = Some (Some 0) /\
  uptrs demo_two !! 1 <> Some (Some 0).
Proof.
  split; [apply demo_two_reachable|]. split; [lia|]. split; [reflexivity|].
  apply (unique_owner demo_two 0 1 0); [apply demo_two_reachable|lia|reflexivity].
Defined.

(** A block held by a unique_extendable_ptr is allocated and not marked
    for destruction: only that pointer's own [reset()] sets the flag. *)
Theorem owned_block_not_marked (c : config) i id :
  reachable c -> uptrs c !! i = Some (Some id) ->
  exists o, heap (cstore c) !! id = Some o /\ marked_for_destruction o = false.
Proof.
  intros Hc Hi. destruct (owned_block c i id (reachable_Inv _ Hc) Hi) as (o & E & _ & Hm).
  eauto.
Qed.

Lemma owned_block_not_marked_witness :
  reachable demo_locked /\ uptrs demo_locked !! 0 = Some (Some 0) /\
  (exists o, heap (cstore demo_locked) !! 0 = Some o /\ marked_for_destruction o = false).
Proof.
  split; [apply demo_locked_reachable|]. split; [reflexivity|].
  apply (owned_block_not_marked demo_locked 0 0); [apply demo_locked_reachable|reflexivity].
Defined.

(** No leak: in every reachable state an allocated block's use count is
    exactly the number of owning pointers, scoped_extenders and locks in
    progress that designate it, and it is positive; weak_extenders are not
    counted. *)
Theorem allocated_block_referenced (c : config) id o :
  reachable c -> heap (cstore c) !! id = Some o ->
  use_count o = refs c id /\ 0 < refs c id.
Proof.
  intros Hc E. destruct (reachable_Inv _ Hc) as [Hid _].
  specialize (Hid id). unfold inv_at in Hid. rewrite E in Hid.
  destruct Hid as [(H1 & H2 & _) _]. lia.
Qed.

Lemma allocated_block_referenced_witness :
  reachable demo_locked /\ heap (cstore demo_locked) !! 0 = Some (mk_owner 42%N false 2) /\
  (use_count (mk_owner 42%N false 2) = refs demo_locked 0 /\ 0 < refs demo_locked 0).
Proof.
  split; [apply demo_locked_reachable|]. split; [vm_compute; reflexivity|].
  apply (allocated_block_referenced demo_locked 0); [apply demo_locked_reachable|].
  vm_compute. reflexivity.
Defined.

(** [reset()] on an owner destroys the resource at once exactly when no
    scoped_extender and no [lock()] in progress holds it; weak_extenders
    play no part ("destroys it if its lifetime was not temporarily
    extended by scoped_extender"). *)
Theorem reset_frees_unless_extended (c : config) i id :
  reachable c -> uptrs c !! i = Some (Some id) ->
  (heap (snd (unique_extendable_ptr_reset (Some id) (cstore c))) !! id = None <->
   occ id (scopeds c) + occ id (pending c) = 0).
Proof.
  intros Hc Hi. pose proof (reachable_Inv _ Hc) as I.
  destruct (owned_block c i id I Hi) as (o & E & Hcount & _).
  pose proof (occ_lookup id _ _ Hi). pose proof (proj2 ((proj1 I) id)).
  simpl. rewrite lookup_release, decide_True by done.
  rewrite lookup_mark, decide_True, E by done. simpl.
  unfold refs in Hcount. case_decide; split; intros; try done; lia.
Qed.

Lemma reset_frees_unless_extended_witness :
  reachable demo_locked /\ uptrs demo_locked !! 0 = Some (Some 0) /\
  (heap (snd (unique_extendable_ptr_reset (Some 0) (cstore demo_locked))) !! 0 = None <->
   occ 0 (scopeds demo_locked) + occ 0 (pending demo_locked) = 0).
Proof.
  split; [apply demo_locked_reachable|]. split; [reflexivity|].
  apply (reset_frees_unless_extended demo_locked 0 0); [apply demo_locked_reachable|reflexivity].
Defined.

(** [scoped_extender::reset()] (or its destructor) leaves it empty with a
    null [get()], and destroys the resource exactly when it held the last
    strong reference, e.g. the last scoped_extender after the owner's
    [reset()]. *)
Theorem scoped_reset_frees_last (c : config) k id :
  reachable c -> scopeds c !! k = Some (Some id) ->
  let '(s', st') := scoped_extender_reset (Some id) (cstore c) in
  scoped_extender_empty s' = true /\ scoped_extender_get s' st' = Some nullptr /\
  (heap st' !! id = None <-> refs c id = 1).
Proof.
  intros Hc Hk. destruct (reachable_Inv _ Hc) as [Hid _].
  pose proof (occ_lookup id _ _ Hk) as Ho.
  destruct (held_in_heap c id (Hid id)) as (o & E & Hcount & _); [unfold refs; lia|].
  simpl. split; [done|]. split; [done|].
  rewrite lookup_release, decide_True, E by done.
  unfold refs in *. case_decide; split; intros; try done; lia.
Qed.

Lemma scoped_reset_frees_last_witness :
  reachable demo_released /\ scopeds demo_released !! 0 = Some (Some 0) /\
  (let '(s', st') := scoped_extender_reset (Some 0) (cstore demo_released) in
   scoped_extender_empty s' = true /\ scoped_extender_get s' st' = Some nullptr /\
   (heap st' !! 0 = None <-> refs demo_released 0 = 1)).
Proof.
  assert (H : reachable demo_released).
  { apply (reachable_step demo_locked); [apply demo_locked_reachable|].
    apply demo_locked_step_released. }
  split; [exact H|]. split; [reflexivity|].
  apply (scoped_reset_frees_last demo_released 0 0); [exact H|reflexivity].
Defined.

(** Locking and then resetting (or destroying) the resulting
    scoped_extender gives the memory back exactly as it was, whether the
    lock succeeded or failed. *)
Theorem lock_then_reset_restores (w : weak_extender) (st : store) :
  let '(s, st1) := weak_extender_lock w st in
  snd (scoped_extender_reset s st1) = st.
Proof.
  destruct (weak_extender_lock_as_spec w st) as [Hspec _]. rewrite Hspec.
  unfold lock_spec. destruct w as [id|]; [|done].
  destruct (heap st !! id) as [o|] eqn:E; [|done].
  case_decide; [|done].
  destruct (marked_for_destruction o); simpl; by apply (release_acquire id st o).
Qed.




(** Move assignment hands the source's resource to the target: the source
    becomes empty and the target's [get()] is the source's former [get()],
    the drop of the target's former block leaving it untouched. *)
Theorem move_assign_transfers (c : config) i j pi b :
  reachable c -> i <> j -> uptrs c !! i = Some pi -> uptrs c !! j = Some (Some b) ->
  let '(pi', pj', st') := unique_extendable_ptr_move_assign pi (Some b) (cstore c) in
  pi' = Some b /\ pj' = None /\
  unique_extendable_ptr_get pi' st' = unique_extendable_ptr_get (Some b) (cstore c) /\
  unique_extendable_ptr_get (Some b) (cstore c) <> None.
Proof.
  intros Hc Hij Hi Hj. simpl. split; [done|]. split; [done|].
  destruct (owned_block c j b (reachable_Inv _ Hc) Hj) as (o & E & _).
  unfold unique_extendable_ptr_get, deref. rewrite E. split; [|done].
  destruct pi as [a|]; simpl; [|by rewrite E].
  assert (a <> b).
  { intros ->. destruct (reachable_Inv _ Hc) as [Hid _].
    pose proof (proj2 (Hid b)). pose proof (occ_two b _ i j Hij Hi Hj). lia. }
  rewrite lookup_release, decide_False, E by done. done.
Qed.

Lemma move_assign_transfers_witness :
  reachable demo_two /\ 0 <> 1 /\ uptrs demo_two !! 0 = Some (Some 0) /\
  uptrs demo_two !! 1 = Some (Some 1) /\
  (let '(pi', pj', st') := unique_extendable_ptr_move_assign (Some 0) (Some 1) (cstore demo_two) in
   pi' = Some 1 /\ pj' = None /\
   unique_extendable_ptr_get pi' st' = unique_extendable_ptr_get (Some 1) (cstore demo_two) /\
   unique_extendable_ptr_get (Some 1) (cstore demo_two) <> None).
Proof.
  split; [apply demo_two_reachable|]. split; [lia|]. split; [reflexivity|]. split; [reflexivity|].
  apply (move_assign_transfers demo_two 0 1 (Some 0) 1);
    [apply demo_two_reachable|lia|reflexivity|reflexivity].
Defined.

(** [make_unique_extendable] (or the owning constructor) allocates a fresh
    block: nothing held before designates it, not even a weak_extender,
    every existing block is left as it was, and the new owner's [get()]
    returns the new resource. *)
Theorem make_unique_extendable_fresh (c : config) (r : ptr) :
  reachable c ->
  let '(p, st') := make_unique_extendable r (cstore c) in
  exists id, p = Some id /\ heap (cstore c) !! id = None /\ refs c id = 0 /\
    (forall k, weaks c !! k <> Some (Some id)) /\
    unique_extendable_ptr_get p st' = Some r /\
    (forall x, x <> id -> heap st' !! x = heap (cstore c) !! x).
Proof.
  intros Hc. destruct (reachable_Inv _ Hc) as [Hid Hw].
  exists (next_id (cstore c)).
  assert (E : heap (cstore c) !! next_id (cstore c) = None).
  { destruct (heap (cstore c) !! next_id (cstore c)) as [o|] eqn:E; [|done].
    pose proof (Inv_below_next c _ o (conj Hid Hw) E). lia. }
  split; [done|]. split; [done|]. split.
  { specialize (Hid (next_id (cstore c))). unfold inv_at in Hid. rewrite E in Hid. tauto. }
  split; [intros k Hk; pose proof (Hw k _ Hk); lia|].
  split; [unfold unique_extendable_ptr_get, deref; simpl; by rewrite lookup_insert_eq|].
  intros x Hx. simpl. by rewrite lookup_insert_ne.
Qed.

Lemma make_unique_extendable_fresh_witness :
  reachable demo_locked /\
  (let '(p, st') := make_unique_extendable 7%N (cstore demo_locked) in
   exists id, p = Some id /\ heap (cstore demo_locked) !! id = None /\ refs demo_locked id = 0 /\
     (forall k, weaks demo_locked !! k <> Some (Some id)) /\
     unique_extendable_ptr_get p st' = Some 7%N /\
     (forall x, x <> id -> heap st' !! x = heap (cstore demo_locked) !! x)).
Proof.
  split; [apply demo_locked_reachable|].
  apply (make_unique_extendable_fresh demo_locked 7%N). apply demo_locked_reachable.
Defined.

(** What [weak_extender::lock()] does to memory: a failed lock leaves it
    exactly as it was (the strong reference it may have taken is given
    back); a successful one returns the weak_extender's own block, which
    was alive and not marked, and only adds one strong reference to it. *)
Theorem weak_extender_lock_effect (w : weak_extender) (st : store) :
  let '(s, st') := weak_extender_lock w st in
  (s = None /\ st' = st) \/
  (exists id o, s = Some id /\ w = Some id /\ heap st !! id = Some o /\
     0 < use_count o /\ marked_for_destruction o = false /\ st' = acquire id st).
Proof.
  destruct (weak_extender_lock_as_spec w st) as [Hspec _]. rewrite Hspec.
  unfold lock_spec. destruct w as [id|]; [|by left].
  destruct (heap st !! id) as [o|] eqn:E; [|by left].
  case_decide; [|by left].
  destruct (marked_for_destruction o) eqn:M.
  - left. split; [done|]. by apply (release_acquire id st o).
  - right. exists id, o. repeat split; done.
Qed.

(** In the OwningRef variant, once the owner has been reset (or
    destroyed), locking a WeakRef to its resource fails and leaves memory
    unchanged, whether or not ScopedRefs still keep the resource alive. *)
Theorem WeakRef_lock_after_OwningRef_reset (id : nat) (st : store) :
  let st1 := snd (Shareable.OwningRef_reset (Some id) st) in
  Shareable.WeakRef_lock (Shareable.WeakRef_new (Some id)) st1 = (None, st1).
Proof.
  cbn zeta. unfold Shareable.WeakRef_lock, Shareable.WeakRef_new, weak_ptr_lock.
  set (st1 := snd (Shareable.OwningRef_reset (Some id) st)).
  assert (H : match heap st1 !! id with
              | Some o => marked_for_destruction o = true | None => True end).
  { subst st1. simpl. rewrite lookup_release, decide_True by done.
    rewrite lookup_mark, decide_True by done.
    destruct (heap st !! id); simpl; [|done]. case_decide; done. }
  destruct (heap st1 !! id) as [o|] eqn:E; [|done].
  case_decide; [|done].
  unfold deref. rewrite lookup_acquire, decide_True, E by done. simpl. rewrite H. simpl.
  by rewrite (release_acquire id st1 o).
Qed.

(** In the OwningRef variant, locking a WeakRef whose resource is alive and
    not marked succeeds: the ScopedRef holds the same block, one more
    strong reference is taken, and its [get()] returns the resource. *)
Theorem WeakRef_lock_live (id : nat) (st : store) (o : resource_owner) :
  heap st !! id = Some o -> 0 < use_count o -> marked_for_destruction o = false ->
  Shareable.WeakRef_lock (Some id) st = (Some id, acquire id st) /\
  Shareable.ScopedRef_empty (Some id) = false /\
  Shareable.ScopedRef_get (Some id) (acquire id st) = Some (resource o).
Proof.
  intros E Hpos M.
  assert (E' : heap (acquire id st) !! id =
               Some (mk_owner (resource o) (marked_for_destruction o) (S (use_count o)))).
  { by rewrite lookup_acquire, decide_True, E by done. }
  unfold Shareable.WeakRef_lock, weak_ptr_lock. rewrite E, decide_True by done.
  unfold Shareable.ScopedRef_get, deref. rewrite E'. simpl. rewrite M. done.
Qed.

Lemma WeakRef_lock_live_witness :
  heap (cstore demo_locked) !! 0 = Some (mk_owner 42%N false 2) /\
  0 < use_count (mk_owner 42%N false 2) /\
  marked_for_destruction (mk_owner 42%N false 2) = false /\
  (Shareable.WeakRef_lock (Some 0) (cstore demo_locked) = (Some 0, acquire 0 (cstore demo_locked)) /\
   Shareable.ScopedRef_empty (Some 0) = false /\
   Shareable.ScopedRef_get (Some 0) (acquire 0 (cstore demo_locked)) = Some 42%N).
Proof.
  split; [reflexivity|]. split; [simpl; lia|]. split; [reflexivity|].
  apply (WeakRef_lock_live 0 (cstore demo_locked) (mk_owner 42%N false 2));
    [reflexivity|simpl; lia|reflexivity].
Defined.


